(** * Mood tracker: stats derivation, session handling and request guarding

    A shallow embedding of the parts of the application that carry
    invariants:

    - [Stats]: [totalPoints] and [currentStreak] of
      [frontend/src/App.jsx] (the two [useMemo] bodies of
      [DashboardScreen]);
    - [Auth]: the [protect] middleware of
      [backend/middleware/authMiddleware.js];
    - [Session]: the [useAuth] hook of [frontend/src/App.jsx]
      ([authFetch] and the storage effect);
    - [Mood]: the [mood] path of the schema in
      [backend/models/moodModel.js];
    - [Zoned]: [currentStreak] again, in a zone with daylight saving
      time.

    Modelling conventions.

    - A JavaScript [Date] is its time value: [Some t] with [t] the number
      of milliseconds since the epoch, or [None] for an invalid date
      (time value NaN).  All time values a [Date] can hold are integers
      below 2^53, so [Z] arithmetic is exact for them.
    - In [Stats], local time is UTC plus a fixed offset [tz]
      (milliseconds) and time values are not clipped.  [Zoned] has the
      same code in a zone whose offset changes, with the range limit of
      [Date].
    - [Set] is a [gset]; [Set.prototype.has] uses SameValueZero, for which
      NaN equals NaN, so [None] is an ordinary element. *)

From stdpp Require Import base decidable option list sorting gmap sets strings.
From Stdlib Require Import ZArith Lia Ascii.

Local Open Scope Z_scope.

Module Stats.

(** ** Dates *)

(** A time value: [None] is NaN. *)
Abbreviation TimeValue := (option Z).

Definition msPerDay : Z := 86400000.

(** [d.setHours(0, 0, 0, 0)]: the local midnight that starts the local
    day of [t]. *)
Definition setHours0 (tz t : Z) : Z := t - (t + tz) `mod` msPerDay.

(** [d.setDate(d.getDate() - 1)]: MakeDay moves the local day number back
    by one and keeps the time within the day. *)
Definition setDatePrev (t : Z) : Z := t - msPerDay.

(** An entry of [moodHistory].  [date] is the time value of
    [new Date(entry.date)]. *)
Record Entry := mkEntry {
  mood : string;
  journal : string;
  date : TimeValue
}.

(** ** [totalPoints] *)

(** [moodHistory.length * 10] *)
Definition totalPoints (moodHistory : list Entry) : Z :=
  Z.of_nat (length moodHistory) * 10.

(** ** [currentStreak] *)

(** The comparator [(a, b) => new Date(b.date) - new Date(a.date)].  A NaN
    difference is read by [sort] as +0. *)
Definition compareDesc (a b : Entry) : Z :=
  match date b, date a with
  | Some tb, Some ta => tb - ta
  | _, _ => 0
  end.

(** [Array.prototype.sort] as a stable insertion sort: [a] stays before
    [b] unless the comparator is positive. *)
Fixpoint insertSorted (a : Entry) (l : list Entry) : list Entry :=
  match l with
  | [] => [a]
  | b :: l' =>
      if decide (compareDesc a b <= 0) then a :: b :: l'
      else b :: insertSorted a l'
  end.

Definition sortEntries (l : list Entry) : list Entry :=
  foldr insertSorted [] l.

(** The callback of [sortedEntries.map]: the entry's local midnight. *)
Definition entryDay (tz : Z) (e : Entry) : TimeValue :=
  setHours0 tz <$> date e.

(** [new Set(sortedEntries.map(...))] *)
Definition entryDates (tz : Z) (moodHistory : list Entry) : gset TimeValue :=
  list_to_set (entryDay tz <$> sortEntries moodHistory).

(** The [while (true)] loop.  [None] means the fuel ran out before the
    [break]. *)
Fixpoint walkBack (fuel : nat) (dates : gset TimeValue)
    (currentDate streak : Z) : option Z :=
  match fuel with
  | O => None
  | S fuel' =>
      let previousDay := setDatePrev currentDate in
      if decide (Some previousDay ∈ dates)
      then walkBack fuel' dates previousDay (streak + 1)
      else Some streak
  end.

(** The body of the [currentStreak] memo, with [now] the time value of
    [new Date()]. *)
Definition currentStreakFuel (fuel : nat) (tz now : Z)
    (moodHistory : list Entry) : option Z :=
  if decide (length moodHistory = 0%nat) then Some 0
  else
    let streak := 0 in
    let today := setHours0 tz now in
    let dates := entryDates tz moodHistory in
    if decide (Some today ∈ dates)
    then walkBack fuel dates today (streak + 1)
    else
      let yesterday := setDatePrev today in
      if decide (Some yesterday ∉ dates) then Some 0
      else walkBack fuel dates yesterday (streak + 1).

(** Every turn of the loop that does not break finds a day of the set
    that it has not seen before, so one more turn than there are entries
    is enough. *)
Definition currentStreak (tz now : Z) (moodHistory : list Entry) : option Z :=
  currentStreakFuel (S (length moodHistory)) tz now moodHistory.

(** ** Vocabulary of the specification *)

(** The local calendar day of a time value, as a day number. *)
Definition calendarDay (tz t : Z) : Z := (t + tz) `div` msPerDay.

(** The time value at which local day [d] starts. *)
Definition midnight (tz d : Z) : Z := d * msPerDay - tz.

(** The distinct calendar days on which the list has an entry.  An entry
    whose date is invalid lies on no day. *)
Definition calendarDays (tz : Z) (l : list Entry) : gset Z :=
  list_to_set (omap (λ e, calendarDay tz <$> date e) l).

(** [Run D last k]: the [k] days ending at [last] are all in [D], and the
    day before them is not; the run cannot be extended backwards. *)
Definition Run (D : gset Z) (last k : Z) : Prop :=
  0 <= k ∧ (∀ i, 0 <= i < k → last - i ∈ D) ∧ last - k ∉ D.

(** [StreakOf D today k]: [k] is the length of the maximal run of days of
    [D] that ends at [today], or at the day before when [today] is not in
    [D]. *)
Definition StreakOf (D : gset Z) (today k : Z) : Prop :=
  if decide (today ∈ D) then Run D today k
  else Run D (today - 1) k.

(** The algorithm in the words of the specification, on day numbers.
    Step 4, bounded by the number of days in the set. *)
Fixpoint specWalk (n : nat) (D : gset Z) (cursor streak : Z) : Z :=
  match n with
  | O => streak
  | S n' =>
      if decide (cursor - 1 ∈ D)
      then specWalk n' D (cursor - 1) (streak + 1)
      else streak
  end.

(** Steps 1 to 3, then step 4. *)
Definition specStreak (D : gset Z) (today : Z) : Z :=
  if decide (today ∈ D) then specWalk (size D) D today 1
  else if decide (today - 1 ∈ D) then specWalk (size D) D (today - 1) 1
  else 0.


(** [Tail D c m]: the [m] days before [c] are in [D], the one before
    them is not. *)
Definition Tail (D : gset Z) (c m : Z) : Prop :=
  0 <= m ∧ (∀ i, 1 <= i <= m → c - i ∈ D) ∧ c - (m + 1) ∉ D.

(** The days of [D] that lie before [c]: what the loop can still visit. *)
Definition earlier (D : gset Z) (c : Z) : gset Z := filter (λ d, d < c) D.

(** Concrete histories for the examples.

    [now0] is 2025-11-03 06:06:40 UTC; the zone is UTC+05:30. *)

Definition now0 : Z := 1762150000000.
Definition tz0 : Z := 19800000.
Definition entryAt (t : Z) : Entry := mkEntry "good" "" (Some t).
Definition hour : Z := 3600000.

(** ** Dates: local midnights and day numbers *)

Lemma msPerDay_pos : 0 < msPerDay.
Proof. reflexivity. Qed.

Lemma setHours0_midnight tz t : setHours0 tz t = midnight tz (calendarDay tz t).
Proof.
  unfold setHours0, midnight, calendarDay.
  pose proof (Z.div_mod (t + tz) msPerDay) as Hdm.
  pose proof msPerDay_pos. lia.
Qed.

Lemma midnight_inj tz d d' : midnight tz d = midnight tz d' → d = d'.
Proof. unfold midnight. pose proof msPerDay_pos. nia. Qed.

Lemma setDatePrev_midnight tz d : setDatePrev (midnight tz d) = midnight tz (d - 1).
Proof. unfold setDatePrev, midnight. lia. Qed.

Lemma calendarDay_midnight tz d : calendarDay tz (midnight tz d) = d.
Proof.
  unfold calendarDay, midnight.
  replace (d * msPerDay - tz + tz) with (d * msPerDay) by lia.
  apply Z.div_mul. pose proof msPerDay_pos. lia.
Qed.

(** [setHours] is idempotent: a local midnight is its own day start. *)
Lemma setHours0_idemp tz t : setHours0 tz (setHours0 tz t) = setHours0 tz t.
Proof. by rewrite !setHours0_midnight, calendarDay_midnight. Qed.

(** ** The sort only reorders *)

Lemma insertSorted_Permutation a l : insertSorted a l ≡ₚ a :: l.
Proof.
  induction l as [|b l IH]; simpl; [done|].
  case_decide; [done|]. rewrite IH. apply Permutation_swap.
Qed.

Lemma sortEntries_Permutation l : sortEntries l ≡ₚ l.
Proof.
  induction l as [|a l IH]; simpl; [done|].
  by rewrite insertSorted_Permutation, IH.
Qed.

(** ** The set of days *)

Lemma elem_of_entryDates tz l x :
  x ∈ entryDates tz l ↔ ∃ e, e ∈ l ∧ x = entryDay tz e.
Proof.
  unfold entryDates. rewrite elem_of_list_to_set, list_elem_of_fmap.
  split; intros (e & H1 & H2); exists e.
  - by rewrite sortEntries_Permutation in H2.
  - by rewrite sortEntries_Permutation.
Qed.


Lemma elem_of_calendarDays tz l d :
  d ∈ calendarDays tz l ↔ ∃ e t, e ∈ l ∧ date e = Some t ∧ calendarDay tz t = d.
Proof.
  unfold calendarDays. rewrite elem_of_list_to_set, list_elem_of_omap.
  split.
  - intros (e & He & Hd). destruct (date e) as [t|] eqn:Ht; [|done].
    simpl in Hd. injection Hd as <-. by exists e, t.
  - intros (e & t & He & Ht & Hd). exists e. split; [done|].
    by rewrite Ht; simpl; rewrite Hd.
Qed.

(** The code's set of midnights and the set of day numbers hold the same
    days. *)
Lemma entryDates_calendarDays tz l d :
  Some (midnight tz d) ∈ entryDates tz l ↔ d ∈ calendarDays tz l.
Proof.
  rewrite elem_of_entryDates, elem_of_calendarDays. unfold entryDay. split.
  - intros (e & He & Hx). destruct (date e) as [t|] eqn:Ht; [|done].
    simpl in Hx. injection Hx as Hx. exists e, t. split_and!; [done..|].
    rewrite setHours0_midnight in Hx. symmetry. by eapply midnight_inj.
  - intros (e & t & He & Ht & Hd). exists e. split; [done|].
    rewrite Ht. simpl. by rewrite setHours0_midnight, Hd.
Qed.

(** ** Runs of consecutive days *)

Lemma Run_unique D last k k' : Run D last k → Run D last k' → k = k'.
Proof.
  intros (Hk & Hin & Hout) (Hk' & Hin' & Hout').
  destruct (Z.lt_trichotomy k k') as [Hlt|[?|Hlt]]; [|done|].
  - destruct Hout. apply Hin'. lia.
  - destruct Hout'. apply Hin. lia.
Qed.

Lemma StreakOf_unique D today k k' :
  StreakOf D today k → StreakOf D today k' → k = k'.
Proof. unfold StreakOf. case_decide; apply Run_unique. Qed.

Lemma Tail_unique D c m m' : Tail D c m → Tail D c m' → m = m'.
Proof.
  intros (Hm & Hin & Hout) (Hm' & Hin' & Hout').
  destruct (Z.lt_trichotomy m m') as [Hlt|[?|Hlt]]; [|done|].
  - destruct Hout. apply Hin'. lia.
  - destruct Hout'. apply Hin. lia.
Qed.

Lemma Tail_stop D c : c - 1 ∉ D → Tail D c 0.
Proof.
  intros Hc. split_and!; [lia| intros; lia |].
  by replace (c - (0 + 1)) with (c - 1) by lia.
Qed.

Lemma Tail_step D c m : c - 1 ∈ D → Tail D (c - 1) m → Tail D c (m + 1).
Proof.
  intros Hc (Hm & Hin & Hout). split_and!; [lia| |].
  - intros i Hi. destruct (decide (i = 1)) as [->|]; [done|].
    replace (c - i) with (c - 1 - (i - 1)) by lia. apply Hin. lia.
  - by replace (c - (m + 1 + 1)) with (c - 1 - (m + 1)) by lia.
Qed.

Lemma Tail_Run D c m : c ∈ D → Tail D c m → Run D c (1 + m).
Proof.
  intros Hc (Hm & Hin & Hout). split_and!; [lia| |].
  - intros i Hi. destruct (decide (i = 0)) as [->|].
    + by replace (c - 0) with c by lia.
    + apply Hin. lia.
  - by replace (c - (1 + m)) with (c - (m + 1)) by lia.
Qed.

Lemma earlier_step D c :
  c - 1 ∈ D → (size (earlier D (c - 1)) < size (earlier D c))%nat.
Proof.
  intros Hc. apply subset_size. unfold earlier. split.
  - intros d. rewrite !elem_of_filter. intros [? ?]. split; [lia|done].
  - intros Hsub. specialize (Hsub (c - 1)). rewrite !elem_of_filter in Hsub.
    destruct Hsub; [split; [lia|done] | lia].
Qed.

Lemma earlier_size D c : (size (earlier D c) ≤ size D)%nat.
Proof. apply subseteq_size. unfold earlier. intros d. rewrite elem_of_filter. tauto. Qed.

Lemma earlier_empty D c : size (earlier D c) = 0%nat → c - 1 ∉ D.
Proof.
  intros Hsz Hc. apply size_empty_inv in Hsz.
  apply (not_elem_of_empty (C:=gset Z) (c - 1)). rewrite <- Hsz.
  unfold earlier. rewrite elem_of_filter. split; [lia|done].
Qed.

(** ** The loop *)

Section walk.
Context (tz : Z) (dates : gset TimeValue) (D : gset Z).
Hypothesis dates_D : ∀ d, Some (midnight tz d) ∈ dates ↔ d ∈ D.

(** With more fuel than days left to visit, the loop breaks, and it
    has then counted the days before the cursor. *)
Lemma walkBack_Tail fuel c s :
  (size (earlier D c) < fuel)%nat →
  ∃ m, walkBack fuel dates (midnight tz c) s = Some (s + m) ∧ Tail D c m.
Proof using dates_D.
  revert c s. induction fuel as [|fuel IH]; intros c s Hsz; [lia|].
  simpl. rewrite setDatePrev_midnight. case_decide as Hc.
  - apply dates_D in Hc. pose proof (earlier_step D c Hc).
    destruct (IH (c - 1) (s + 1)) as (m & Hw & Ht); [lia|].
    exists (m + 1). split; [|by apply Tail_step].
    rewrite Hw. f_equal. lia.
  - rewrite dates_D in Hc. exists 0. split; [f_equal; lia | by apply Tail_stop].
Qed.

Lemma specWalk_Tail n c s :
  (size (earlier D c) ≤ n)%nat →
  ∃ m, specWalk n D c s = s + m ∧ Tail D c m.
Proof.
  revert c s. induction n as [|n IH]; intros c s Hsz; simpl.
  - exists 0. split; [lia|]. apply Tail_stop, earlier_empty. lia.
  - case_decide as Hc.
    + pose proof (earlier_step D c Hc).
      destruct (IH (c - 1) (s + 1)) as (m & Hw & Ht); [lia|].
      exists (m + 1). split; [lia | by apply Tail_step].
    + exists 0. split; [lia | by apply Tail_stop].
Qed.

(** The loop on midnights computes step 4 on day numbers. *)
Lemma walkBack_specWalk fuel n c s :
  (size D < fuel)%nat → (size D ≤ n)%nat →
  walkBack fuel dates (midnight tz c) s = Some (specWalk n D c s).
Proof using dates_D.
  intros Hf Hn. pose proof (earlier_size D c).
  destruct (walkBack_Tail fuel c s) as (m & -> & Hm); [lia|].
  destruct (specWalk_Tail n c s) as (m' & -> & Hm'); [lia|].
  by rewrite (Tail_unique _ _ _ _ Hm Hm').
Qed.
End walk.

Lemma specStreak_StreakOf D today : StreakOf D today (specStreak D today).
Proof.
  unfold StreakOf, specStreak. case_decide as Ht.
  - destruct (specWalk_Tail D (size D) today 1) as (m & -> & Hm);
      [apply earlier_size|]. by apply Tail_Run.
  - case_decide as Hy.
    + destruct (specWalk_Tail D (size D) (today - 1) 1) as (m & -> & Hm);
        [apply earlier_size|]. by apply Tail_Run.
    + split_and!; [lia| intros; lia |].
      by replace (today - 1 - 0) with (today - 1) by lia.
Qed.

Lemma size_list_to_set_le (l : list Z) :
  (size (list_to_set l : gset Z) ≤ length l)%nat.
Proof.
  induction l as [|x l IH].
  - rewrite list_to_set_nil, size_empty. done.
  - rewrite list_to_set_cons, length_cons, size_union_alt, size_singleton.
    assert (size (list_to_set l ∖ {[x]} : gset Z) ≤ size (list_to_set l : gset Z))%nat.
    { apply subseteq_size. intros y. rewrite elem_of_difference. tauto. }
    lia.
Qed.

Lemma calendarDays_size tz l : (size (calendarDays tz l) ≤ length l)%nat.
Proof.
  unfold calendarDays. etrans; [apply size_list_to_set_le|].
  induction l as [|e l IH]; [done|].
  unfold omap in *. simpl. destruct (calendarDay tz <$> date e); simpl; lia.
Qed.

Lemma calendarDays_nil tz : calendarDays tz [] = ∅.
Proof. done. Qed.

(** The memo, for any fuel above the number of distinct days, returns
    what the specification's algorithm computes. *)
Lemma currentStreakFuel_spec fuel tz now l :
  (size (calendarDays tz l) < fuel)%nat →
  currentStreakFuel fuel tz now l
  = Some (specStreak (calendarDays tz l) (calendarDay tz now)).
Proof.
  intros Hfuel. unfold currentStreakFuel, specStreak.
  pose proof (entryDates_calendarDays tz l) as HD.
  case_decide as Hlen.
  - destruct l; [|done]. rewrite calendarDays_nil.
    rewrite !decide_False by set_solver. done.
  - simpl. rewrite setHours0_midnight, setDatePrev_midnight.
    destruct (decide (Some (midnight tz (calendarDay tz now)) ∈ entryDates tz l))
      as [Ht|Ht]; rewrite HD in Ht.
    + rewrite decide_True by done.
      by apply walkBack_specWalk.
    + rewrite (decide_False (P:=calendarDay tz now ∈ _)) by done.
      destruct (decide (Some (midnight tz (calendarDay tz now - 1)) ∉ entryDates tz l))
        as [Hy|Hy]; rewrite HD in Hy.
      * by rewrite decide_False.
      * apply dec_stable in Hy. rewrite decide_True by done.
        by apply walkBack_specWalk.
Qed.

Lemma currentStreak_spec tz now l :
  currentStreak tz now l
  = Some (specStreak (calendarDays tz l) (calendarDay tz now)).
Proof.
  apply currentStreakFuel_spec. pose proof (calendarDays_size tz l). lia.
Qed.

(** The fuel does not matter once it exceeds the number of entries. *)
Lemma currentStreakFuel_stable fuel tz now l :
  (length l < fuel)%nat →
  currentStreakFuel fuel tz now l = currentStreak tz now l.
Proof.
  intros Hfuel. rewrite currentStreak_spec. apply currentStreakFuel_spec.
  pose proof (calendarDays_size tz l). lia.
Qed.

(** ** The streak is a function of the set of days *)

Lemma entryDates_eq_calendarDays tz l1 l2 :
  entryDates tz l1 = entryDates tz l2 → calendarDays tz l1 = calendarDays tz l2.
Proof.
  intros Heq. apply set_eq. intros d.
  by rewrite <- !entryDates_calendarDays, Heq.
Qed.

Lemma currentStreak_calendarDays tz now l1 l2 :
  calendarDays tz l1 = calendarDays tz l2 →
  currentStreak tz now l1 = currentStreak tz now l2.
Proof. intros Heq. by rewrite !currentStreak_spec, Heq. Qed.

Lemma entryDates_Permutation tz l1 l2 :
  l1 ≡ₚ l2 → entryDates tz l1 = entryDates tz l2.
Proof.
  intros Hp. apply set_eq. intros x. rewrite !elem_of_entryDates.
  split; intros (e & He & Hx); exists e; split; try done.
  - by rewrite <- Hp.
  - by rewrite Hp.
Qed.

Lemma currentStreak_Permutation tz now l1 l2 :
  l1 ≡ₚ l2 → currentStreak tz now l1 = currentStreak tz now l2.
Proof.
  intros Hp. by apply currentStreak_calendarDays, entryDates_eq_calendarDays,
    entryDates_Permutation.
Qed.

(** ** Duplicates *)








(** ** Streaks of small sets of days *)

Lemma currentStreak_StreakOf tz now l k :
  StreakOf (calendarDays tz l) (calendarDay tz now) k →
  currentStreak tz now l = Some k.
Proof.
  intros Hk. rewrite currentStreak_spec. f_equal.
  eapply StreakOf_unique; [apply specStreak_StreakOf | done].
Qed.

Lemma StreakOf_today d : StreakOf {[d]} d 1.
Proof.
  unfold StreakOf. rewrite decide_True by by apply elem_of_singleton.
  split_and!; [lia| |]; [intros i Hi|]; rewrite elem_of_singleton; lia.
Qed.

Lemma StreakOf_three_days d : StreakOf {[d; d - 1; d - 2]} d 3.
Proof.
  unfold StreakOf. rewrite decide_True.
  2: { rewrite !elem_of_union, !elem_of_singleton. lia. }
  split_and!; [lia| |]; [intros i Hi|];
    rewrite !elem_of_union, !elem_of_singleton; lia.
Qed.

Lemma StreakOf_since_yesterday d : StreakOf {[d - 1; d - 2]} d 2.
Proof.
  unfold StreakOf. rewrite decide_False.
  2: { rewrite !elem_of_union, !elem_of_singleton. lia. }
  split_and!; [lia| |]; [intros i Hi|];
    rewrite !elem_of_union, !elem_of_singleton; lia.
Qed.

Lemma StreakOf_gap d : StreakOf {[d - 2]} d 0.
Proof.
  unfold StreakOf. rewrite decide_False.
  2: { rewrite elem_of_singleton. lia. }
  split_and!; [lia| intros; lia |].
  rewrite elem_of_singleton. lia.
Qed.

(** ** Main results on the stats *)

(** In a zone with a fixed offset: for every entry list the memo returns a
    streak [k]; [k] is what
    the algorithm of the specification computes on the set of calendar
    days of the entries (seed at today, else at yesterday, else 0, then
    walk back while the previous day is in the set), and [k] is the length
    of the maximal run of consecutive days with an entry that ends today,
    or yesterday when today has no entry. *)
Theorem currentStreak_maximal_run tz now l :
  ∃ k, currentStreak tz now l = Some k
     ∧ k = specStreak (calendarDays tz l) (calendarDay tz now)
     ∧ StreakOf (calendarDays tz l) (calendarDay tz now) k.
Proof.
  eexists. split_and!; [apply currentStreak_spec | done |].
  apply specStreak_StreakOf.
Qed.

(** C3: for every entry list, whatever days its entries are on, the
    points are ten times the number of entries. *)
Theorem totalPoints_ten_per_entry l :
  totalPoints l = 10 * Z.of_nat (length l).
Proof. unfold totalPoints. lia. Qed.


(** C9: two entry lists whose dates normalize to the same set of days
    have the same streak. *)
Theorem currentStreak_depends_on_days tz now l1 l2 :
  entryDates tz l1 = entryDates tz l2 →
  currentStreak tz now l1 = currentStreak tz now l2.
Proof.
  intros Heq. by apply currentStreak_calendarDays, entryDates_eq_calendarDays.
Qed.

(** In a zone with a fixed offset, the examples of the specification
    come out as stated.  A list with entries on
    today only has streak 1; on today, yesterday and the day before,
    streak 3; on yesterday and the day before, streak 2; on the day before
    yesterday only, streak 0; the empty list has streak 0 and 0 points. *)
Theorem streak_examples tz now l1 l3 l2 l0 :
  calendarDays tz l1 = {[calendarDay tz now]} →
  calendarDays tz l3
  = {[calendarDay tz now; calendarDay tz now - 1; calendarDay tz now - 2]} →
  calendarDays tz l2 = {[calendarDay tz now - 1; calendarDay tz now - 2]} →
  calendarDays tz l0 = {[calendarDay tz now - 2]} →
  currentStreak tz now l1 = Some 1
  ∧ currentStreak tz now l3 = Some 3
  ∧ currentStreak tz now l2 = Some 2
  ∧ currentStreak tz now l0 = Some 0
  ∧ currentStreak tz now [] = Some 0
  ∧ totalPoints [] = 0.
Proof.
  intros H1 H3 H2 H0. split_and!; [| | | |done..].
  - apply currentStreak_StreakOf. rewrite H1. apply StreakOf_today.
  - apply currentStreak_StreakOf. rewrite H3. apply StreakOf_three_days.
  - apply currentStreak_StreakOf. rewrite H2. apply StreakOf_since_yesterday.
  - apply currentStreak_StreakOf. rewrite H0. apply StreakOf_gap.
Qed.

Lemma streak_examples_witness :
  currentStreak tz0 now0 [entryAt (now0 - hour); entryAt now0] = Some 1
  ∧ currentStreak tz0 now0
      [entryAt (now0 - 2 * msPerDay); entryAt now0; entryAt (now0 - msPerDay)]
    = Some 3
  ∧ currentStreak tz0 now0
      [entryAt (now0 - msPerDay - hour); entryAt (now0 - 2 * msPerDay)]
    = Some 2
  ∧ currentStreak tz0 now0 [entryAt (now0 - 2 * msPerDay)] = Some 0
  ∧ currentStreak tz0 now0 [] = Some 0
  ∧ totalPoints [] = 0.
Proof.
  apply (streak_examples tz0 now0); reflexivity.
Defined.

Lemma currentStreak_depends_on_days_witness :
  currentStreak tz0 now0
    [entryAt (now0 - msPerDay); entryAt now0; entryAt (now0 - hour)]
  = currentStreak tz0 now0 [entryAt now0; entryAt (now0 - msPerDay - hour)].
Proof.
  apply (currentStreak_depends_on_days tz0 now0). reflexivity.
Defined.

End Stats.

(** * The [protect] middleware *)

Module Auth.

Local Open Scope string_scope.

(** ** Strings *)

(** [s.split(' ')]: cut at every space; the pieces may be empty, and a
    string without a space is its only piece. *)
Fixpoint splitSpace (s : string) : list string :=
  match s with
  | EmptyString => [""]
  | String c s' =>
      if decide (c = " "%char) then "" :: splitSpace s'
      else
        match splitSpace s' with
        | w :: ws => String c w :: ws
        | [] => [String c ""]
        end
  end.

(** [s.startsWith('Bearer')] *)
Definition startsWithBearer (s : string) : bool := String.prefix "Bearer" s.

(** Truthiness of a string that may be [undefined]. *)
Definition truthy (s : option string) : bool :=
  match s with
  | Some s => bool_decide (s ≠ "")
  | None => false
  end.

(** ** The collaborators of the middleware *)

(** A user document as [select('-password')] returns it. *)
Record User := mkUser {
  userId : string;
  username : string
}.

(** The payload of a token; [id] may be absent. *)
Record Payload := mkPayload {
  id : option string
}.

(** Why [jwt.verify] throws. *)
Inductive JwtError :=
  | JwtMustBeProvided
  | JwtMalformed
  | TokenExpired
  | InvalidSignature.

(** The result of awaiting [User.findById(...).select(...)]: a document,
    [null], or a rejection (a cast error on the id, a failed query). *)
Inductive Lookup :=
  | Found (u : User)
  | Null
  | QueryFailed (msg : string).

(** What the middleware does to its surroundings, in order. *)
Inductive Effect :=
  | ConsoleError (msg : string)
  | ResJson (status : Z) (message : string)
  | CallNext (user : User).

Definition errorMessage (e : JwtError) : string :=
  match e with
  | JwtMustBeProvided => "jwt must be provided"
  | JwtMalformed => "jwt malformed"
  | TokenExpired => "jwt expired"
  | InvalidSignature => "invalid signature"
  end.

(** A verifier and a user store for the examples: [good] names the user
    [u1], [ghost] names a user that is gone, [old] is expired. *)
Definition demoVerify (t : string) : JwtError + Payload :=
  if decide (t = "good") then inr (mkPayload (Some "u1"))
  else if decide (t = "ghost") then inr (mkPayload (Some "u2"))
  else if decide (t = "old") then inl TokenExpired
  else inl JwtMalformed.

Definition demoUser : User := mkUser "u1" "alice".

Definition demoFind (i : option string) : Lookup :=
  if decide (i = Some "u1") then Found demoUser else Null.

(** A user store that cannot be reached: every lookup rejects. *)
Definition downFind (i : option string) : Lookup :=
  QueryFailed "Operation users.findOne() buffering timed out".

(** No space in the string. *)
Fixpoint spaceless (s : string) : bool :=
  match s with
  | EmptyString => true
  | String c s' => negb (bool_decide (c = " "%char)) && spaceless s'
  end.

Section protect.
(** [jwt.verify(token, process.env.JWT_SECRET)] on a non-empty string:
    the payload, or the error thrown. *)
Variable verifySigned : string → JwtError + Payload.

(** [User.findById(id).select('-password')] *)
Variable findById : option string → Lookup.

(** [jwt.verify] starts with [if (!jwtString)] and rejects an absent or
    empty token before it looks at the secret. *)
Definition jwtVerify (token : option string) : JwtError + Payload :=
  match token with
  | Some t => if decide (t = "") then inl JwtMustBeProvided else verifySigned t
  | None => inl JwtMustBeProvided
  end.

(** The [catch] block. *)
Definition catchBlock (msg : string) : list Effect :=
  [ConsoleError ("Token failed: " ++ msg);
   ResJson 401 "Not authorized, token failed"].

(** The [try] block, after [token] is assigned. *)
Definition tryBlock (token : option string) : list Effect :=
  match jwtVerify token with
  | inl e => catchBlock (errorMessage e)
  | inr decoded =>
      match findById (id decoded) with
      | Found user => [CallNext user]
      | Null => catchBlock "User not found"
      | QueryFailed msg => catchBlock msg
      end
  end.

(** The first [if]: the value of [token] after it, and what it did.
    [authorization] is [req.headers.authorization]. *)
Definition bearerBlock (authorization : option string)
    : option string * list Effect :=
  match authorization with
  | Some h =>
      if truthy (Some h) && startsWithBearer h then
        let token := splitSpace h !! 1%nat in
        (token, tryBlock token)
      else (None, [])
  | None => (None, [])
  end.

(** [protect(req, res, next)] *)
Definition protect (authorization : option string) : list Effect :=
  let '(token, effects) := bearerBlock authorization in
  if negb (truthy token)
  then effects ++ [ResJson 401 "Not authorized, no token"]
  else effects.

(** The token the request presents, as the middleware reads it. *)
Definition presentedToken (authorization : option string) : option string :=
  (bearerBlock authorization).1.

(** ** Reading a trace *)

(** The calls of [res.status(..).json(..)]. *)
Definition responses (t : list Effect) : list (Z * string) :=
  omap (λ e, match e with ResJson st m => Some (st, m) | _ => None end) t.

(** The calls of [next()], with [req.user] at that moment. *)
Definition nextCalls (t : list Effect) : list User :=
  omap (λ e, match e with CallNext u => Some u | _ => None end) t.

(** What reaches the client: the first response.  A later [json] finds
    the headers sent and throws. *)
Definition sent (t : list Effect) : option (Z * string) := head (responses t).

Definition headersSentError (t : list Effect) : bool :=
  bool_decide (1 < length (responses t))%nat.

(** Exactly one outcome: one [next()] and no response, or one 401 and no
    [next()]. *)
Definition singleOutcome (t : list Effect) : Prop :=
  (∃ u, nextCalls t = [u] ∧ responses t = [])
  ∨ (∃ m, nextCalls t = [] ∧ responses t = [(401, m)]).

(** ** A guarded route *)

(** Modelled from the spec: [routes/moodRoutes.js] is not among the
    sources; the interface table gives GET and POST [/api/moods] the
    auth column "Bearer token", so the route runs [protect] and then,
    for every [next()], the handler on the entry store. *)
Definition guardedRoute {Store : Type} (handler : User → Store → Store)
    (authorization : option string) (store : Store) : Store :=
  foldl (λ st u, handler u st) store (nextCalls (protect authorization)).

(** ** Verification in the words of the specification *)

(** The token a request presents.  The interface is
    [Authorization: Bearer <token>]: a request without the header, or with
    a header that does not start with [Bearer], presents no token; the
    header [Bearer tok], with [tok] not empty and free of spaces, presents
    [tok]. *)
Inductive Presents : option string → option string → Prop :=
  | presents_no_header : Presents None None
  | presents_no_bearer h :
      String.prefix "Bearer" h = false → Presents (Some h) None
  | presents_bearer tok :
      tok ≠ "" → spaceless tok = true →
      Presents (Some ("Bearer " ++ tok)) (Some tok).

(** Verification fails: a 401 reaches the client and [next()] is not
    called. *)
Definition failsWith401 (t : list Effect) : Prop :=
  nextCalls t = [] ∧ ∃ m, sent t = Some (401, m).

(** The causes of failure that are listed: the token is missing;
    [jwt.verify] rejects it (malformed, expired, unrecognized key); it
    verifies and the user it names does not exist. *)
Definition listedCause (token : option string) : Prop :=
  token = None
  ∨ (∃ t e, token = Some t ∧ verifySigned t = inl e)
  ∨ (∃ t decoded,
       token = Some t ∧ verifySigned t = inr decoded
       ∧ findById (id decoded) = Null).

(** A cause that is not listed: the token verifies and the lookup of the
    user it names is rejected. *)
Definition lookupFails (token : option string) : Prop :=
  ∃ t decoded msg,
    token = Some t ∧ verifySigned t = inr decoded
    ∧ findById (id decoded) = QueryFailed msg.

(** Failure exactly for the listed causes. *)
Definition failsExactlyWhenListed : Prop :=
  ∀ authorization token,
    Presents authorization token →
    failsWith401 (protect authorization) ↔ listedCause token.

(** ** What the middleware does *)

Lemma protect_no_header :
  protect None = [ResJson 401 "Not authorized, no token"].
Proof. reflexivity. Qed.

(** A header that is not a bearer header is treated as no token. *)
Lemma protect_not_bearer h :
  startsWithBearer h = false →
  protect (Some h) = [ResJson 401 "Not authorized, no token"].
Proof.
  intros Hb. unfold protect, bearerBlock. rewrite Hb, andb_false_r. done.
Qed.

Lemma tryBlock_falsy token :
  truthy token = false →
  tryBlock token
  = catchBlock (errorMessage JwtMustBeProvided).
Proof.
  unfold tryBlock, jwtVerify. destruct token as [t|]; [|done].
  simpl. intros Ht. apply bool_decide_eq_false in Ht.
  apply dec_stable in Ht as ->. done.
Qed.

(** The try block ends in exactly one of the two ways. *)
Lemma tryBlock_singleOutcome token : singleOutcome (tryBlock token).
Proof.
  unfold tryBlock. destruct (jwtVerify token) as [e|decoded].
  - right. by eexists.
  - destruct (findById (id decoded)) as [u| |msg].
    + left. by exists u.
    + right. by eexists.
    + right. by eexists.
Qed.

(** A bearer header that carries a token: one outcome. *)
Lemma protect_bearer_token h :
  truthy (Some h) && startsWithBearer h = true →
  truthy (splitSpace h !! 1%nat) = true →
  protect (Some h) = tryBlock (splitSpace h !! 1%nat).
Proof.
  intros Hb Ht. unfold protect, bearerBlock. by rewrite Hb, Ht.
Qed.

(** A bearer header without a token: the catch block answers, and the
    last [if] answers again. *)
Lemma protect_bearer_no_token h :
  truthy (Some h) && startsWithBearer h = true →
  truthy (splitSpace h !! 1%nat) = false →
  protect (Some h)
  = [ConsoleError "Token failed: jwt must be provided";
     ResJson 401 "Not authorized, token failed";
     ResJson 401 "Not authorized, no token"].
Proof.
  intros Hb Ht. unfold protect, bearerBlock. rewrite Hb, Ht.
  by rewrite tryBlock_falsy.
Qed.

Lemma splitSpace_spaceless s : spaceless s = true → splitSpace s = [s].
Proof.
  induction s as [|c s IH]; simpl; [done|].
  intros [Hc Hs]%andb_prop. apply negb_true_iff, bool_decide_eq_false in Hc.
  rewrite decide_False by done. by rewrite IH.
Qed.

(** The header [Bearer tok]: the try block runs on [tok], and the last
    [if] is silent. *)
Lemma protect_bearer_spaceless tok :
  tok ≠ "" → spaceless tok = true →
  protect (Some ("Bearer " ++ tok)) = tryBlock (Some tok).
Proof.
  intros Hne Hsp.
  assert (splitSpace ("Bearer " ++ tok) !! 1%nat = Some tok) as Hpiece.
  { change (splitSpace ("Bearer " ++ tok)) with ("Bearer" :: splitSpace tok).
    by rewrite splitSpace_spaceless. }
  rewrite protect_bearer_token; rewrite ?Hpiece; try done.
  simpl. by rewrite bool_decide_true.
Qed.

(** The middleware has a single outcome unless the header starts with
    [Bearer] and has no token after the first space. *)
Lemma protect_singleOutcome_iff authorization :
  singleOutcome (protect authorization)
  ↔ ¬ ∃ h, authorization = Some h
         ∧ truthy (Some h) && startsWithBearer h = true
         ∧ truthy (splitSpace h !! 1%nat) = false.
Proof.
  destruct authorization as [h|].
  - destruct (truthy (Some h) && startsWithBearer h) eqn:Hb.
    + destruct (truthy (splitSpace h !! 1%nat)) eqn:Ht.
      * rewrite protect_bearer_token by done. split.
        -- intros _ (h' & [= <-] & _ & Ht'). congruence.
        -- intros _. apply tryBlock_singleOutcome.
      * rewrite protect_bearer_no_token by done. split.
        -- intros [(u & Hn & _)|(m & _ & Hr)]; discriminate.
        -- intros Hne. destruct Hne. by exists h.
    + split.
      * intros _ (h' & [= <-] & Hb' & _). congruence.
      * intros _. right. exists "Not authorized, no token".
        unfold protect, bearerBlock. by rewrite Hb.
  - split.
    + intros _ (h' & [=] & _).
    + intros _. right. by eexists.
Qed.

(** ** Main results on the middleware *)

(** C5: a request without an Authorization header gets status 401 with a
    JSON body that has a [message]; [next()] is not called, so the route
    handler does not run and the entry store is as it was. *)
Theorem no_header_unauthorized {Store : Type}
    (handler : User → Store → Store) (store : Store) :
  protect None = [ResJson 401 "Not authorized, no token"]
  ∧ sent (protect None) = Some (401, "Not authorized, no token")
  ∧ nextCalls (protect None) = []
  ∧ guardedRoute handler None store = store.
Proof. by split_and!. Qed.

(** C6, amended: for a request that presents its token as the interface
    asks, verification fails, with a 401 sent and [next()] not called,
    exactly when the token is missing, or [jwt.verify] rejects it, or it
    verifies and the user it names does not exist, or it verifies and the
    lookup of that user is rejected; and when it verifies and the user is
    found, the only thing the middleware does is call [next()] with that
    user as [req.user]. *)
Theorem verification_fails_exactly authorization token :
  Presents authorization token →
  (failsWith401 (protect authorization)
   ↔ listedCause token ∨ lookupFails token)
  ∧ (∀ t decoded user,
       token = Some t → verifySigned t = inr decoded →
       findById (id decoded) = Found user →
       protect authorization = [CallNext user]).
Proof.
  unfold failsWith401, listedCause, lookupFails.
  intros [|h Hh|tok Hne Hsp].
  - rewrite protect_no_header. split; [|by intros t decoded user [=]].
    split; [by intros _; left; left|]. intros _. split; [done|by eexists].
  - rewrite protect_not_bearer by done. split; [|by intros t decoded user [=]].
    split; [by intros _; left; left|]. intros _. split; [done|by eexists].
  - rewrite protect_bearer_spaceless by done.
    unfold tryBlock, jwtVerify. rewrite decide_False by done.
    destruct (verifySigned tok) as [e|decoded] eqn:Hv.
    { split; [|by intros t d u [= <-]; rewrite Hv].
      split; [|intros _; split; [done|by eexists]].
      intros _. left. right. left. by exists tok, e. }
    destruct (findById (id decoded)) as [u| |msg] eqn:Hf.
    + split.
      * split; [by intros [[=] _]|].
        intros [[[=]|[(t & e & [= <-] & He)|(t & d & [= <-] & Hd & Hn)]]
               |(t & d & m & [= <-] & Hd & Hq)]; congruence.
      * intros t d user [= <-] Hd Hu. congruence.
    + split; [|intros t d user [= <-] Hd Hu; congruence].
      split; [|intros _; split; [done|by eexists]].
      intros _. left. right. right. by exists tok, decoded.
    + split; [|intros t d user [= <-] Hd Hu; congruence].
      split; [|intros _; split; [done|by eexists]].
      intros _. right. by exists tok, decoded, msg.
Qed.

(** C10, at the header [Bearer]: whatever the verifier and the user store
    are, the catch block sends a 401 and the last [if] calls
    [res.status(401).json] once more, after the headers are sent. *)
Theorem bearer_without_token_answers_twice :
  protect (Some "Bearer")
  = [ConsoleError "Token failed: jwt must be provided";
     ResJson 401 "Not authorized, token failed";
     ResJson 401 "Not authorized, no token"]
  ∧ length (responses (protect (Some "Bearer"))) = 2%nat
  ∧ headersSentError (protect (Some "Bearer")) = true
  ∧ ¬ singleOutcome (protect (Some "Bearer")).
Proof.
  assert (protect (Some "Bearer")
    = [ConsoleError "Token failed: jwt must be provided";
       ResJson 401 "Not authorized, token failed";
       ResJson 401 "Not authorized, no token"]) as Hp by done.
  rewrite Hp. split_and!; [done..|].
  intros [(u & Hn & _)|(m & _ & Hr)]; discriminate.
Qed.

End protect.

(** C6 as stated fails when the user store cannot be reached: the header
    [Bearer good] presents a token that verifies, the lookup of its user is
    rejected, and the answer is a 401 although none of the listed causes
    holds. *)
Lemma failed_lookup_is_unlisted_cause :
  Presents (Some "Bearer good") (Some "good")
  ∧ failsWith401 (protect demoVerify downFind (Some "Bearer good"))
  ∧ ¬ listedCause demoVerify downFind (Some "good")
  ∧ ¬ failsExactlyWhenListed demoVerify downFind.
Proof.
  assert (Presents (Some "Bearer good") (Some "good")) as HP.
  { by apply (presents_bearer "good"). }
  assert (failsWith401 (protect demoVerify downFind (Some "Bearer good"))) as HF.
  { split; [done|by eexists]. }
  assert (¬ listedCause demoVerify downFind (Some "good")) as HL.
  { intros [[=]|[(t & e & [= <-] & He)|(t & d & [= <-] & Hd & Hn)]];
      discriminate. }
  split_and!; [done..|]. intros Hclaim. apply HL. by apply (Hclaim _ _ HP).
Qed.

Lemma verification_fails_exactly_witness :
  (failsWith401 (protect demoVerify demoFind (Some "Bearer good"))
   ↔ listedCause demoVerify demoFind (Some "good")
     ∨ lookupFails demoVerify demoFind (Some "good"))
  ∧ (∀ t decoded user,
       Some "good" = Some t → demoVerify t = inr decoded →
       demoFind (id decoded) = Found user →
       protect demoVerify demoFind (Some "Bearer good") = [CallNext user]).
Proof.
  apply (verification_fails_exactly demoVerify demoFind
           (Some "Bearer good") (Some "good")).
  apply (presents_bearer "good"); [discriminate | reflexivity].
Defined.

(** ** The middleware on concrete headers *)

Example protect_good_token :
  protect demoVerify demoFind (Some "Bearer good") = [CallNext demoUser].
Proof. reflexivity. Qed.

Example protect_expired_token :
  protect demoVerify demoFind (Some "Bearer old")
  = [ConsoleError "Token failed: jwt expired";
     ResJson 401 "Not authorized, token failed"].
Proof. reflexivity. Qed.

Example protect_user_gone :
  protect demoVerify demoFind (Some "Bearer ghost")
  = [ConsoleError "Token failed: User not found";
     ResJson 401 "Not authorized, token failed"].
Proof. reflexivity. Qed.

(** [startsWith] is case sensitive. *)
Example protect_lowercase_scheme :
  protect demoVerify demoFind (Some "bearer good")
  = [ResJson 401 "Not authorized, no token"].
Proof. reflexivity. Qed.

(** Two spaces: the piece at index 1 is empty. *)
Example protect_two_spaces :
  protect demoVerify demoFind (Some "Bearer  good")
  = [ConsoleError "Token failed: jwt must be provided";
     ResJson 401 "Not authorized, token failed";
     ResJson 401 "Not authorized, no token"].
Proof. reflexivity. Qed.

Example splitSpace_header :
  splitSpace "Bearer a.b.c" = ["Bearer"; "a.b.c"] ∧ splitSpace "Bearer" = ["Bearer"].
Proof. split; reflexivity. Qed.

End Auth.

(** * The client session: [useAuth] *)

Module Session.

Local Open Scope string_scope.

(** The value kept in the [auth] state: what the server answered to a
    login, or what [JSON.parse] made of the stored string.  A field may be
    absent. *)
Record AuthData := mkAuth {
  token : option string;
  username : option string
}.

(** [localStorage] *)
Abbreviation Storage := (gmap string string).

(** The hook's state and the storage it mirrors into. *)
Record State := mkState {
  auth : option AuthData;
  storage : Storage
}.

(** How the awaited [fetch] ends. *)
Inductive FetchOutcome :=
  | FetchRejected (msg : string)
  | FetchResponse (status : Z).

(** How the awaited [authFetch] ends. *)
Inductive AuthFetchResult :=
  | Thrown (msg : string)
  | Resolved (status : Z).

(** What a call of [authFetch] did: the Authorization header of the
    request it sent, if it sent one; the arguments of its [setAuth] calls;
    and how it ended. *)
Record AuthFetchRun := mkRun {
  sentAuthorization : option string;
  setAuthCalls : list (option AuthData);
  result : AuthFetchResult
}.

Definition truthy (s : option string) : bool :=
  match s with
  | Some s => bool_decide (s ≠ "")
  | None => false
  end.

(** A session for the examples. *)
Definition alice : AuthData := mkAuth (Some "header.payload.signature") (Some "alice").

Definition aliceState : State :=
  mkState (Some alice) {["auth" := "alice-json"; "theme" := "dark"]}.

Section useAuth.
(** [JSON.parse] on the stored string: [None] when it throws, [Some None]
    for a falsy value such as [null]. *)
Variable parse : string → option (option AuthData).

(** [JSON.stringify] *)
Variable stringify : AuthData → string.

(** The initializer of [useState]. *)
Definition initAuth (ls : Storage) : option AuthData * Storage :=
  let storedAuth := ls !! "auth" in
  if truthy storedAuth then
    match parse (default "" storedAuth) with
    | Some v => (v, ls)
    | None => (None, delete "auth" ls)
    end
  else (None, ls).

(** The effect that depends on [auth]. *)
Definition storageEffect (a : option AuthData) (ls : Storage) : Storage :=
  match a with
  | Some v => <["auth" := stringify v]> ls
  | None => delete "auth" ls
  end.

(** [setAuth(v)] followed by the render it causes: the effect runs when
    the state changed.  Setting [null] over [null] changes nothing; an
    object is always a new one. *)
Definition setAuth (st : State) (v : option AuthData) : State :=
  match v, auth st with
  | None, None => st
  | _, _ => mkState v (storageEffect v (storage st))
  end.

(** [authFetch(url, options)] for a caller that passes no headers of its
    own, as both callers do; [outcome] is how the request ends if it is
    sent. *)
Definition authFetch (a : option AuthData) (outcome : FetchOutcome)
    : AuthFetchRun :=
  match a with
  | Some v =>
      if truthy (token v) then
        let authorization := "Bearer " ++ default "" (token v) in
        match outcome with
        | FetchResponse status =>
            if decide (status = 401)
            then mkRun (Some authorization) [None]
                   (Thrown "Unauthorized. Please log in again.")
            else mkRun (Some authorization) [] (Resolved status)
        | FetchRejected msg => mkRun (Some authorization) [] (Thrown msg)
        end
      else mkRun None [] (Thrown "No authentication token found.")
  | None => mkRun None [] (Thrown "No authentication token found.")
  end.

(** A call of [authFetch] in state [st], with the state it leaves. *)
Definition authFetchStep (st : State) (outcome : FetchOutcome)
    : AuthFetchResult * State :=
  let run := authFetch (auth st) outcome in
  (result run, foldl setAuth st (setAuthCalls run)).

(** [logout] *)
Definition logout (st : State) : State := setAuth st None.

(** A stored string that does not parse is removed, and the session
    starts anonymous. *)
Lemma initAuth_unparsable ls stored :
  ls !! "auth" = Some stored → stored ≠ "" → parse stored = None →
  initAuth ls = (None, delete "auth" ls).
Proof.
  intros Hls Hne Hp. unfold initAuth. rewrite Hls. simpl.
  rewrite bool_decide_true by done. by rewrite Hp.
Qed.

Lemma storageEffect_None ls : storageEffect None ls !! "auth" = None.
Proof. apply lookup_delete_eq. Qed.

Lemma authFetch_sends_bearer v tok outcome :
  token v = Some tok → tok ≠ "" →
  sentAuthorization (authFetch (Some v) outcome) = Some ("Bearer " ++ tok).
Proof.
  intros Ht Hne. unfold authFetch. rewrite Ht. simpl.
  rewrite bool_decide_true by done.
  destruct outcome as [msg|status]; [done|]. by case_decide.
Qed.

Lemma authFetch_rejected st v msg :
  auth st = Some v → truthy (token v) = true →
  authFetchStep st (FetchRejected msg) = (Thrown msg, st).
Proof. intros Ha Ht. unfold authFetchStep, authFetch. by rewrite Ha, Ht. Qed.

(** C7: an authenticated request that is answered with 401 leaves the
    session anonymous and the [auth] key of the storage empty; answered
    with any other status it leaves state and storage as they were and
    hands the response to the caller. *)
Theorem unauthorized_ends_session st v status :
  auth st = Some v → truthy (token v) = true →
  (status = 401 →
     ∃ msg, authFetchStep st (FetchResponse status)
            = (Thrown msg, mkState None (delete "auth" (storage st)))
          ∧ (delete "auth" (storage st) : Storage) !! "auth" = None)
  ∧ (status ≠ 401 →
     authFetchStep st (FetchResponse status) = (Resolved status, st)).
Proof.
  intros Ha Ht. unfold authFetchStep, authFetch. rewrite Ha, Ht. split.
  - intros ->. rewrite decide_True by done. simpl. unfold setAuth.
    rewrite Ha. eexists. split; [done|]. apply lookup_delete_eq.
  - intros Hne. by rewrite decide_False.
Qed.

End useAuth.

Lemma unauthorized_ends_session_witness :
  (∃ msg, authFetchStep (λ _, "alice-json") aliceState (FetchResponse 401)
          = (Thrown msg, mkState None (delete "auth" (storage aliceState)))
        ∧ (delete "auth" (storage aliceState) : Storage) !! "auth" = None)
  ∧ authFetchStep (λ _, "alice-json") aliceState (FetchResponse 403)
    = (Resolved 403, aliceState).
Proof.
  split.
  - apply (unauthorized_ends_session (λ _, "alice-json") aliceState alice 401);
      reflexivity.
  - apply (unauthorized_ends_session (λ _, "alice-json") aliceState alice 403);
      [reflexivity | reflexivity | lia].
Defined.

End Session.

(** * Mood entries: the schema and entry creation *)

Module Mood.

Local Open Scope string_scope.

(** The [enum] of the [mood] path. *)
Definition moodEnum : list string := ["happy"; "good"; "neutral"; "sad"; "upset"].

(** Why a validator of the [mood] path fails. *)
Inductive ValidatorError :=
  | Required (message : string)
  | NotInEnum (value : string).

(** The [mood] path: [type: String], [required: [true, 'Mood is
    required']], [enum].  For a string path [required] asks for a
    non-empty string; [None] is an absent or null value. *)
Definition validateMood (v : option string) : ValidatorError + string :=
  match v with
  | None => inl (Required "Mood is required")
  | Some s =>
      if decide (s = "") then inl (Required "Mood is required")
      else if decide (s ∈ moodEnum) then inr s
      else inl (NotInEnum s)
  end.

(** The body of POST [/api/moods]. *)
Record Body := mkBody {
  bodyMood : option string;
  bodyJournal : option string;
  bodyDate : option Z
}.

(** A stored entry. *)
Record MoodEntry := mkMoodEntry {
  user : string;
  mood : string;
  journal : string;
  date : Z
}.

(** The answer to a submission. *)
Inductive Response :=
  | Created (entry : MoodEntry)
  | BadRequest (error : ValidatorError).

Definition statusOf (r : Response) : Z :=
  match r with
  | Created _ => 201
  | BadRequest _ => 400
  end.

Section createEntry.
(** The [trim] setter of the [journal] path. *)
Variable trim : string → string.

(** Modelled from the spec: the controller behind POST [/api/moods] is
    not among the sources.  [createEntry(userId, mood, journal?, date?)]
    fails with a validation error, mapped to status 400, unless [mood] is
    one of the enumerated values; otherwise the entry is persisted with
    the user as owner, [journal] defaulting to the empty text and [date]
    to the submission time, and the answer is 201 with the entry. *)
Definition createEntry (store : list MoodEntry) (userId : string)
    (body : Body) (now : Z) : Response * list MoodEntry :=
  match validateMood (bodyMood body) with
  | inl e => (BadRequest e, store)
  | inr m =>
      let entry :=
        mkMoodEntry userId m (trim (default "" (bodyJournal body)))
          (default now (bodyDate body)) in
      (Created entry, entry :: store)
  end.

Lemma validateMood_inr v m : validateMood v = inr m → v = Some m ∧ m ∈ moodEnum.
Proof.
  unfold validateMood. destruct v as [s|]; [|done].
  repeat case_decide; [done| |done]. by intros [= ->].
Qed.

Lemma moodEnum_nonempty m : m ∈ moodEnum → m ≠ "".
Proof.
  unfold moodEnum. rewrite !elem_of_cons, elem_of_nil.
  intros [->|[->|[->|[->|[->|[]]]]]]; done.
Qed.

Lemma validateMood_absent : validateMood None = inl (Required "Mood is required").
Proof. done. Qed.

(** C8: a submission whose mood is not one of the five values is answered
    with status 400 for a validation error and the store is as it was; a
    mood that is one of the five passes the validation of the [mood]
    field. *)
Theorem mood_enum_enforced store userId journal date now bad ok :
  bad ∉ moodEnum → ok ∈ moodEnum →
  (∃ e, createEntry store userId (mkBody (Some bad) journal date) now
        = (BadRequest e, store)
      ∧ statusOf (BadRequest e) = 400)
  ∧ validateMood (Some ok) = inr ok.
Proof.
  intros Hbad Hok. split.
  - unfold createEntry, validateMood. simpl.
    case_decide; [by eexists|]. rewrite decide_False by done. by eexists.
  - unfold validateMood. rewrite decide_False by by apply moodEnum_nonempty.
    by rewrite decide_True.
Qed.

End createEntry.

Lemma mood_enum_enforced_witness :
  (∃ e, createEntry id [] "u1" (mkBody (Some "furious") None None) 0
        = (BadRequest e, [])
      ∧ statusOf (BadRequest e) = 400)
  ∧ validateMood (Some "happy") = inr "happy".
Proof.
  apply (mood_enum_enforced id [] "u1" None None 0 "furious" "happy").
  - compute_done.
  - compute_done.
Defined.

End Mood.

(** * More on the streak and the points *)

Module StreakFacts.

Import Stats.

(** Newest first: [b] is not later than [a].  Nothing is asked of an
    entry whose date is invalid. *)
Definition newerFirst (a b : Entry) : Prop :=
  match date a, date b with
  | Some ta, Some tb => tb <= ta
  | _, _ => True
  end.


Definition twoDays : list Entry := [entryAt (now0 - msPerDay); entryAt now0].

(** ** Helpers *)












Lemma newerFirst_compare a b : newerFirst a b ↔ compareDesc a b <= 0.
Proof.
  unfold newerFirst, compareDesc.
  destruct (date a), (date b); split; intros; try done; lia.
Qed.

Lemma insertSorted_Sorted a l :
  (∀ e, e ∈ a :: l → is_Some (date e)) →
  Sorted newerFirst l → Sorted newerFirst (insertSorted a l).
Proof.
  intros Hvalid. induction 1 as [|b l Hs IH Hhd]; simpl.
  - by repeat constructor.
  - case_decide as Hab.
    + apply newerFirst_compare in Hab. by repeat constructor.
    + constructor.
      * apply IH. intros e He. apply Hvalid.
        rewrite !elem_of_cons in *. tauto.
      * assert (newerFirst b a) as Hba.
        { unfold newerFirst, compareDesc in *.
          destruct (Hvalid a) as [ta Hta]; [rewrite !elem_of_cons; tauto|].
          destruct (Hvalid b) as [tb Htb]; [rewrite !elem_of_cons; tauto|].
          rewrite Hta, Htb in *. lia. }
        destruct Hhd as [|c l Hbc]; simpl; [by constructor|].
        case_decide; by constructor.
Qed.

Lemma sortEntries_Sorted l :
  (∀ e, e ∈ l → is_Some (date e)) → Sorted newerFirst (sortEntries l).
Proof.
  induction l as [|a l IH]; intros Hvalid; simpl; [constructor|].
  apply insertSorted_Sorted.
  - intros e. rewrite elem_of_cons, sortEntries_Permutation.
    intros [->|He]; apply Hvalid; rewrite elem_of_cons; tauto.
  - apply IH. intros e He. apply Hvalid. rewrite elem_of_cons. tauto.
Qed.





(** ** Results *)





(** X7: when every date is valid, the sorted copy holds the same entries,
    newest first. *)
Theorem sortEntries_newest_first l :
  (∀ e, e ∈ l → is_Some (date e)) →
  Sorted newerFirst (sortEntries l) ∧ sortEntries l ≡ₚ l.
Proof.
  intros Hvalid. split; [by apply sortEntries_Sorted|].
  apply sortEntries_Permutation.
Qed.



Lemma sortEntries_newest_first_witness :
  Sorted newerFirst (sortEntries twoDays) ∧ sortEntries twoDays ≡ₚ twoDays.
Proof.
  apply (sortEntries_newest_first twoDays).
  intros e. unfold twoDays. rewrite !elem_of_cons, elem_of_nil.
  intros [->|[->|[]]]; by eexists.
Defined.

End StreakFacts.

(** * The session over time: mount, login, logout, requests *)

Module SessionFlow.

Import Session.

Local Open Scope string_scope.

(** How the request of [login] or [register] ends: [fetch] or [json]
    rejects; the response is not [ok] and its body carries [message] or
    not; the response is [ok] and its body is the new [auth]. *)
Inductive CredentialsOutcome :=
  | NetworkFailure (msg : string)
  | Refused (message : option string)
  | Accepted (data : AuthData).

(** [m || fallback] *)
Definition orElse (m : option string) (fallback : string) : string :=
  if truthy m then default "" m else fallback.

(** The state of [AuthScreen]. *)
Record AuthForm := mkForm {
  formUsername : string;
  formPassword : string;
  formLoading : bool;
  formError : option string
}.

(** The [page] state of [App]. *)
Inductive Page := LoginPage | RegisterPage.

(** What [App] returns. *)
Inductive Screen :=
  | ShowDashboard (a : AuthData)
  | ShowAuth (title : string).

(** What can happen to the hook after it is mounted. *)
Inductive Event :=
  | Login (o : CredentialsOutcome)
  | Register (o : CredentialsOutcome)
  | Logout
  | AuthFetch (o : FetchOutcome).

(** The events that cannot start a session. *)
Definition notAccepted (ev : Event) : Prop :=
  match ev with
  | Login (Accepted _) | Register (Accepted _) => False
  | _ => True
  end.

(** A stored session for the examples, with its two conversions. *)
Definition demoStringify (a : AuthData) : string := "alice-json".

Definition demoParse (s : string) : option (option AuthData) :=
  if decide (s = "alice-json") then Some (Some alice) else None.

Section flow.
Variable parse : string → option (option AuthData).
Variable stringify : AuthData → string.

(** The body shared by [login] and [register]: the message of the error
    thrown, if any, and the state left. *)
Definition submitCredentials (fallback : string) (st : State)
    (o : CredentialsOutcome) : option string * State :=
  match o with
  | NetworkFailure msg => (Some msg, st)
  | Refused message => (Some (orElse message fallback), st)
  | Accepted data => (None, setAuth stringify st (Some data))
  end.

Definition login := submitCredentials "Login failed".

Definition register := submitCredentials "Registration failed".

(** [handleSubmit] of [AuthScreen] with [submitHandler] one of the two
    above: whether a request was made, the form and the session left. *)
Definition authScreenSubmit
    (submitHandler : State → CredentialsOutcome → option string * State)
    (form : AuthForm) (st : State) (o : CredentialsOutcome)
    : bool * AuthForm * State :=
  if decide (formUsername form = "" ∨ formPassword form = "") then
    (false,
     mkForm (formUsername form) (formPassword form) (formLoading form)
       (Some "Username and password are required."),
     st)
  else
    let '(thrown, st') := submitHandler st o in
    (true, mkForm (formUsername form) (formPassword form) false thrown, st').

(** The first render of the hook: the initializer, then the effect. *)
Definition mount (ls : Storage) : State :=
  let '(a, ls') := initAuth parse ls in
  mkState a (storageEffect stringify a ls').

(** [App]: the dashboard when there is a session, else the form of the
    current page. *)
Definition render (st : State) (page : Page) : Screen :=
  match auth st with
  | Some a => ShowDashboard a
  | None =>
      match page with
      | LoginPage => ShowAuth "Login"
      | RegisterPage => ShowAuth "Register"
      end
  end.

Definition step (st : State) (ev : Event) : State :=
  match ev with
  | Login o => (login st o).2
  | Register o => (register st o).2
  | Logout => logout stringify st
  | AuthFetch o => (authFetchStep stringify st o).2
  end.

Definition run (st : State) (evs : list Event) : State := foldl step st evs.

(** The storage holds the session: the [auth] key has the string of the
    current [auth], and is absent when there is none. *)
Definition Mirrors (st : State) : Prop :=
  storage st !! "auth" = stringify <$> auth st.

(** ** Helpers *)

Lemma setAuth_Mirrors st v : Mirrors st → Mirrors (setAuth stringify st v).
Proof.
  intros Hm. unfold setAuth.
  destruct v as [a|]; [|destruct (auth st) as [b|] eqn:Hb]; [| |done].
  - unfold Mirrors. destruct (auth st); simpl; apply lookup_insert_eq.
  - unfold Mirrors. simpl. apply lookup_delete_eq.
Qed.

Lemma setAuth_other st v k :
  k ≠ "auth" → storage (setAuth stringify st v) !! k = storage st !! k.
Proof.
  intros Hk. unfold setAuth.
  destruct v as [a|], (auth st) as [b|]; simpl;
    by rewrite ?lookup_insert_ne, ?lookup_delete_ne.
Qed.

Lemma step_cases st ev : step st ev = st ∨ ∃ v, step st ev = setAuth stringify st v.
Proof.
  destruct ev as [o|o| |o]; simpl.
  - unfold login, submitCredentials.
    destruct o; [by left | by left | right; by eexists].
  - unfold register, submitCredentials.
    destruct o; [by left | by left | right; by eexists].
  - right. by eexists.
  - unfold authFetchStep, authFetch.
    destruct (auth st) as [v|]; [|by left].
    destruct (truthy (token v)); [|by left].
    destruct o as [msg|status]; [by left|].
    case_decide; [right; by exists None | by left].
Qed.

Lemma mount_Mirrors ls : Mirrors (mount ls).
Proof.
  unfold mount, Mirrors. destruct (initAuth parse ls) as [[a|] ls']; simpl.
  - apply lookup_insert_eq.
  - apply lookup_delete_eq.
Qed.

Lemma mount_other ls k : k ≠ "auth" → storage (mount ls) !! k = ls !! k.
Proof.
  intros Hk. unfold mount, initAuth.
  destruct (truthy (ls !! "auth")).
  - destruct (parse _) as [[a|]|]; simpl.
    + by rewrite lookup_insert_ne.
    + by rewrite lookup_delete_ne.
    + by rewrite !lookup_delete_ne.
  - simpl. by rewrite lookup_delete_ne.
Qed.

Lemma setAuth_anonymous st : auth st = None → setAuth stringify st None = st.
Proof. intros Ha. unfold setAuth. by rewrite Ha. Qed.

Lemma step_anonymous st ev :
  auth st = None → notAccepted ev → step st ev = st.
Proof.
  intros Ha Hev. destruct ev as [o|o| |o]; simpl.
  - unfold login, submitCredentials. by destruct o.
  - unfold register, submitCredentials. by destruct o.
  - by apply setAuth_anonymous.
  - unfold authFetchStep, authFetch. by rewrite Ha.
Qed.

(** ** Results *)

(** X8: from the first render on, whatever happens, the [auth] key of the
    storage holds the string of the current session and is absent when
    there is none; no other key of the storage is ever touched. *)
Theorem storage_mirrors_session ls evs :
  Mirrors (run (mount ls) evs)
  ∧ ∀ k, k ≠ "auth" → storage (run (mount ls) evs) !! k = ls !! k.
Proof.
  unfold run. induction evs as [|ev evs IH] using rev_ind.
  - split; [apply mount_Mirrors | apply mount_other].
  - rewrite foldl_app. simpl. destruct IH as [IHm IHo].
    destruct (step_cases (foldl step (mount ls) evs) ev) as [->|[v ->]].
    + done.
    + split; [by apply setAuth_Mirrors|].
      intros k Hk. rewrite setAuth_other by done. by apply IHo.
Qed.

(** X9: a reload restores the session.  When the storage mirrors the
    state and the stored string parses back to the current [auth], the
    first render on that storage gives the same state. *)
Theorem reload_restores_session st :
  Mirrors st →
  (∀ a, auth st = Some a →
        stringify a ≠ "" ∧ parse (stringify a) = Some (Some a)) →
  mount (storage st) = st.
Proof.
  unfold Mirrors. intros Hm Hrt. destruct st as [[a|] ls]; simpl in *.
  - destruct (Hrt a eq_refl) as [Hne Hp].
    unfold mount, initAuth. rewrite Hm. simpl.
    rewrite bool_decide_true by done. rewrite Hp. simpl.
    by rewrite insert_id.
  - unfold mount, initAuth. rewrite Hm. simpl. by rewrite delete_id.
Qed.

(** X10: an anonymous session stays anonymous, with the storage as it is,
    through failed logins, failed registrations, logouts and calls of
    [authFetch]; such a call sends no request, and [App] shows the login
    or registration form. *)
Theorem anonymous_until_accepted st evs o page :
  auth st = None → Forall notAccepted evs →
  run st evs = st
  ∧ authFetch (auth (run st evs)) o
    = mkRun None [] (Thrown "No authentication token found.")
  ∧ ∃ title, render (run st evs) page = ShowAuth title.
Proof.
  intros Ha Hevs.
  assert (run st evs = st) as ->.
  { unfold run. induction Hevs as [|ev evs Hev _ IH]; simpl; [done|].
    by rewrite step_anonymous. }
  split_and!; [done|by rewrite Ha|].
  unfold render. rewrite Ha. destruct page; by eexists.
Qed.

(** X11: [authFetch] sends a request exactly when the session has a
    non-empty token, and the request then carries [Bearer] and that
    token. *)
Theorem authFetch_request_iff a o h :
  sentAuthorization (authFetch a o) = Some h
  ↔ ∃ v tok, a = Some v ∧ token v = Some tok ∧ tok ≠ "" ∧ h = "Bearer " ++ tok.
Proof.
  split.
  - unfold authFetch. destruct a as [v|]; [|done].
    destruct (token v) as [tok|] eqn:Ht; simpl; [|done].
    case_bool_decide as Hne; [|done].
    intros Hs. exists v, tok. split_and!; try done.
    destruct o as [msg|status]; [|case_decide]; by injection Hs.
  - intros (v & tok & -> & Ht & Hne & ->).
    by apply authFetch_sends_bearer.
Qed.

(** X12: submitting the login or registration form changes the session
    only when both fields were filled in and the server accepted them;
    with an empty field no request is made at all. *)
Theorem credentials_change_session fallback form st o :
  let '(sent, form', st') :=
    authScreenSubmit (submitCredentials fallback) form st o in
  (sent = false ↔ formUsername form = "" ∨ formPassword form = "")
  ∧ (sent = false →
     st' = st ∧ formError form' = Some "Username and password are required.")
  ∧ (st' ≠ st →
     ∃ data, o = Accepted data ∧ sent = true
           ∧ auth st' = Some data ∧ formError form' = None).
Proof.
  unfold authScreenSubmit. case_decide as Hempty.
  - split_and!; [done|done|]. intros Hne. by destruct Hne.
  - destruct o as [msg|message|data]; simpl.
    + split_and!; [split; [done|tauto] | done | intros Hne; by destruct Hne].
    + split_and!; [split; [done|tauto] | done | intros Hne; by destruct Hne].
    + split_and!; [split; [done|tauto] | done |].
      intros _. by exists data.
Qed.

End flow.

Lemma reload_restores_session_witness :
  mount demoParse demoStringify (storage aliceState) = aliceState.
Proof.
  apply (reload_restores_session demoParse demoStringify aliceState).
  - reflexivity.
  - intros a [= <-]. split; [discriminate | reflexivity].
Defined.

Lemma anonymous_until_accepted_witness :
  run demoStringify (mkState None ∅)
    [Login (Refused None); AuthFetch (FetchResponse 200); Logout]
  = mkState None ∅
  ∧ authFetch
      (auth (run demoStringify (mkState None ∅)
               [Login (Refused None); AuthFetch (FetchResponse 200); Logout]))
      (FetchResponse 200)
    = mkRun None [] (Thrown "No authentication token found.")
  ∧ ∃ title,
      render (run demoStringify (mkState None ∅)
                [Login (Refused None); AuthFetch (FetchResponse 200); Logout])
        RegisterPage
      = ShowAuth title.
Proof.
  apply (anonymous_until_accepted demoStringify (mkState None ∅)).
  - reflexivity.
  - repeat constructor.
Defined.

End SessionFlow.

(** * The dashboard: history, form and submission *)

Module Dashboard.

Import Stats Session.

Local Open Scope string_scope.

(** An entry of [moodOptions]. *)
Record MoodStyle := mkStyle {
  emoji : string;
  color : string
}.

(** [moodOptions], in the order of [Object.entries]. *)
Definition moodOptions : list (string * MoodStyle) :=
  [("happy", mkStyle "😊" "mood-color-happy");
   ("good", mkStyle "🙂" "mood-color-good");
   ("neutral", mkStyle "😐" "mood-color-neutral");
   ("sad", mkStyle "😟" "mood-color-sad");
   ("upset", mkStyle "😠" "mood-color-upset")].

(** [table[key]] for an own property. *)
Fixpoint lookupKey {A : Type} (key : string) (table : list (string * A))
    : option A :=
  match table with
  | [] => None
  | (k, v) :: table' => if decide (key = k) then Some v else lookupKey key table'
  end.

(** [moodOptions[entry.mood]?.emoji || '❓'].  A key that [moodOptions]
    only inherits has no [emoji], so it ends at the fallback as an absent
    key does. *)
Definition historyEmoji (entryMood : option string) : string :=
  let found := emoji <$> (entryMood ≫= λ k, lookupKey k moodOptions) in
  if truthy found then default "" found else "❓".

(** [moodOptions[entry.mood]?.color || 'mood-color-neutral'] *)
Definition historyColor (entryMood : option string) : string :=
  let found := color <$> (entryMood ≫= λ k, lookupKey k moodOptions) in
  if truthy found then default "" found else "mood-color-neutral".

(** The state of [DashboardScreen]. *)
Record Dash := mkDash {
  selectedMood : string;
  journalText : string;
  moodHistory : list Entry;
  loading : bool;
  error : option string;
  message : string
}.

Definition initialDash : Dash := mkDash "neutral" "" [] false None "".

(** [response.ok] *)
Definition ok (status : Z) : bool := bool_decide (200 <= status <= 299).

(** The radio buttons: there is one for each key of [moodOptions]. *)
Definition selectMood (m : string) (d : Dash) : Dash :=
  mkDash m (journalText d) (moodHistory d) (loading d) (error d) (message d).

(** The textarea. *)
Definition typeJournal (s : string) (d : Dash) : Dash :=
  mkDash (selectedMood d) s (moodHistory d) (loading d) (error d) (message d).

(** [newEntry]: the body of the POST, with [now] the time value of
    [new Date()]. *)
Definition newEntry (d : Dash) (now : Z) : Mood.Body :=
  Mood.mkBody (Some (selectedMood d)) (Some (journalText d)) (Some now).

(** The callback of [setTimeout]. *)
Definition afterTimeout (d : Dash) : Dash :=
  mkDash (selectedMood d) (journalText d) (moodHistory d) (loading d)
    (Some "") "".


Section dashboard.
Variable stringify : AuthData → string.

(** [handleSubmit]: [outcome] is how the request ends if it is sent,
    [body] what [response.json()] gives, a rejection or the saved entry. *)
Definition handleSubmit (st : State) (d : Dash) (outcome : FetchOutcome)
    (body : string + Entry) : State * Dash :=
  let '(res, st') := authFetchStep stringify st outcome in
  let failed msg :=
    mkDash (selectedMood d) (journalText d) (moodHistory d) false (Some msg) "" in
  match res with
  | Resolved status =>
      if ok status then
        match body with
        | inr savedEntry =>
            (st', mkDash "neutral" "" (savedEntry :: moodHistory d) false None
                    "Mood saved successfully! You earned 10 points.")
        | inl msg => (st', failed msg)
        end
      else (st', failed "Failed to save mood. Please try again.")
  | Thrown msg => (st', failed msg)
  end.

(** [fetchMoods] *)
Definition fetchMoods (st : State) (d : Dash) (outcome : FetchOutcome)
    (body : string + list Entry) : State * Dash :=
  let '(res, st') := authFetchStep stringify st outcome in
  let finish history err :=
    mkDash (selectedMood d) (journalText d) history false err (message d) in
  match res with
  | Resolved status =>
      if ok status then
        match body with
        | inr data => (st', finish data None)
        | inl msg => (st', finish (moodHistory d) (Some msg))
        end
      else (st', finish (moodHistory d) (Some "Failed to fetch mood history."))
  | Thrown msg => (st', finish (moodHistory d) (Some msg))
  end.

(** The states the dashboard can be in. *)
Inductive Reachable : Dash → Prop :=
  | reach_initial : Reachable initialDash
  | reach_select d m :
      Reachable d → m ∈ moodOptions.*1 → Reachable (selectMood m d)
  | reach_type d s : Reachable d → Reachable (typeJournal s d)
  | reach_submit d st o body : Reachable d → Reachable (handleSubmit st d o body).2
  | reach_fetch d st o body : Reachable d → Reachable (fetchMoods st d o body).2
  | reach_timeout d : Reachable d → Reachable (afterTimeout d).

(** ** Helpers *)

Lemma moodOptions_keys : moodOptions.*1 = Mood.moodEnum.
Proof. reflexivity. Qed.

Lemma handleSubmit_selectedMood st d o body :
  selectedMood (handleSubmit st d o body).2 = selectedMood d
  ∨ selectedMood (handleSubmit st d o body).2 = "neutral".
Proof.
  unfold handleSubmit. destruct (authFetchStep _ _ _) as [[msg|status] st'].
  - by left.
  - destruct (ok status); [destruct body|]; simpl; auto.
Qed.

Lemma fetchMoods_selectedMood st d o body :
  selectedMood (fetchMoods st d o body).2 = selectedMood d.
Proof.
  unfold fetchMoods. destruct (authFetchStep _ _ _) as [[msg|status] st'].
  - done.
  - by destruct (ok status); [destruct body|].
Qed.

Lemma Reachable_selectedMood d : Reachable d → selectedMood d ∈ Mood.moodEnum.
Proof.
  assert ("neutral" ∈ Mood.moodEnum) as Hneutral by compute_done.
  induction 1 as [|d m _ _ Hm|d s _ IH|d st o body _ IH|d st o body _ IH|d _ IH];
    try done.
  - by destruct (handleSubmit_selectedMood st d o body) as [->| ->].
  - by rewrite fetchMoods_selectedMood.
Qed.

Lemma authFetchStep_resolved st o status st' :
  authFetchStep stringify st o = (Resolved status, st') →
  o = FetchResponse status ∧ st' = st
  ∧ ∃ v, auth st = Some v ∧ truthy (token v) = true.
Proof.
  unfold authFetchStep, authFetch. destruct (auth st) as [v|]; [|done].
  destruct (truthy (token v)) eqn:Ht; [|done].
  destruct o as [msg|status']; [done|].
  case_decide; [done|]. simpl. intros [= -> <-]. eauto.
Qed.

(** ** Results *)


(** X14: a submission changes the history only by putting the entry of a
    2xx answer in front; in every other case, whatever went wrong, the
    history, the selected mood and the journal text stay and an error is
    shown. *)
Theorem submit_keeps_or_prepends st d o body :
  (∃ status savedEntry,
      o = FetchResponse status ∧ 200 <= status <= 299 ∧ body = inr savedEntry
      ∧ moodHistory (handleSubmit st d o body).2 = savedEntry :: moodHistory d
      ∧ (handleSubmit st d o body).1 = st)
  ∨ (moodHistory (handleSubmit st d o body).2 = moodHistory d
     ∧ selectedMood (handleSubmit st d o body).2 = selectedMood d
     ∧ journalText (handleSubmit st d o body).2 = journalText d
     ∧ is_Some (error (handleSubmit st d o body).2)).
Proof.
  unfold handleSubmit.
  destruct (authFetchStep stringify st o) as [[msg|status] st'] eqn:Hstep.
  - right. by split_and!.
  - apply authFetchStep_resolved in Hstep as (-> & -> & _).
    unfold ok. case_bool_decide as Hok.
    + destruct body as [msg|savedEntry].
      * right. by split_and!.
      * left. by exists status, savedEntry.
    + right. by split_and!.
Qed.

(** X15: in every state the dashboard can reach, the mood of the entry
    it would post passes the validation of the schema's [mood] path. *)
Theorem form_mood_always_valid d now :
  Reachable d →
  Mood.validateMood (Mood.bodyMood (newEntry d now)) = inr (selectedMood d).
Proof.
  intros Hm%Reachable_selectedMood. simpl. unfold Mood.validateMood.
  rewrite decide_False by by apply Mood.moodEnum_nonempty.
  by rewrite decide_True.
Qed.

(** X22: the order in which the server lists the entries does not show
    in the stats.  After a fetch, points and streak are the same for any
    two orders of the fetched list. *)
Theorem fetch_order_irrelevant tz now st d o data data' :
  data ≡ₚ data' →
  totalPoints (moodHistory (fetchMoods st d o (inr data)).2)
  = totalPoints (moodHistory (fetchMoods st d o (inr data')).2)
  ∧ currentStreak tz now (moodHistory (fetchMoods st d o (inr data)).2)
    = currentStreak tz now (moodHistory (fetchMoods st d o (inr data')).2).
Proof.
  intros Hp. unfold fetchMoods.
  destruct (authFetchStep stringify st o) as [[msg|status] st']; [done|].
  destruct (ok status); [|done]. simpl. split.
  - unfold totalPoints. by rewrite Hp.
  - by apply currentStreak_Permutation.
Qed.

End dashboard.

(** X16: the history shows the fallback icon exactly for a mood that is
    absent or not one of the five of the schema. *)
Theorem fallback_icon_iff (entryMood : option string) :
  historyEmoji entryMood = "❓"
  ↔ ¬ ∃ m, entryMood = Some m ∧ m ∈ Mood.moodEnum.
Proof.
  destruct entryMood as [m|].
  2: { split; [intros _ (m & [=] & _) | done]. }
  unfold historyEmoji, moodOptions. simpl.
  repeat (case_decide; [subst m; split;
    [intros; discriminate
    |intros Hne; destruct Hne; eexists; split; [done|compute_done]] |]).
  simpl. split; [|done]. intros _ (m' & [= <-] & Hin).
  unfold Mood.moodEnum in Hin. rewrite !elem_of_cons, elem_of_nil in Hin. tauto.
Qed.


Lemma form_mood_always_valid_witness :
  Mood.validateMood
    (Mood.bodyMood (newEntry (typeJournal "rain" (selectMood "sad" initialDash)) now0))
  = inr "sad".
Proof.
  apply (form_mood_always_valid (λ _, "alice-json")).
  apply reach_type, reach_select; [apply reach_initial | compute_done].
Defined.

Lemma fetch_order_irrelevant_witness :
  totalPoints (moodHistory (fetchMoods (λ _, "alice-json") aliceState initialDash
                 (FetchResponse 200) (inr StreakFacts.twoDays)).2)
  = totalPoints (moodHistory (fetchMoods (λ _, "alice-json") aliceState
                   initialDash (FetchResponse 200)
                   (inr (reverse StreakFacts.twoDays))).2)
  ∧ currentStreak tz0 now0
      (moodHistory (fetchMoods (λ _, "alice-json") aliceState initialDash
                      (FetchResponse 200) (inr StreakFacts.twoDays)).2)
    = currentStreak tz0 now0
        (moodHistory (fetchMoods (λ _, "alice-json") aliceState initialDash
                        (FetchResponse 200)
                        (inr (reverse StreakFacts.twoDays))).2).
Proof.
  apply (fetch_order_irrelevant (λ _, "alice-json") tz0 now0 aliceState
           initialDash (FetchResponse 200)).
  symmetry. apply reverse_Permutation.
Defined.

End Dashboard.

(** * The middleware on every header *)

Module AuthFacts.

Import Auth.

Local Open Scope string_scope.

(** No space in the string. *)
Fixpoint spaceFree (s : string) : bool :=
  match s with
  | EmptyString => true
  | String c s' => negb (bool_decide (c = " "%char)) && spaceFree s'
  end.

(** A session whose token names [u1], for the examples. *)
Definition demoSession : Session.AuthData :=
  Session.mkAuth (Some "good") (Some "alice").

(** ** Helpers *)

Lemma splitSpace_spaceFree s : spaceFree s = true → splitSpace s = [s].
Proof.
  induction s as [|c s IH]; simpl; [done|].
  intros [Hc Hs]%andb_prop. apply negb_true_iff, bool_decide_eq_false in Hc.
  rewrite decide_False by done. by rewrite IH.
Qed.

Lemma splitSpace_bearer tok :
  splitSpace ("Bearer " ++ tok) = "Bearer" :: splitSpace tok.
Proof. reflexivity. Qed.

Lemma startsWithBearer_bearer tok : startsWithBearer ("Bearer " ++ tok) = true.
Proof. reflexivity. Qed.

Lemma splitSpace_nonempty s : splitSpace s ≠ [].
Proof.
  destruct s as [|c s]; simpl; [done|].
  case_decide; [done|]. by destruct (splitSpace s).
Qed.

Lemma splitSpace_app a b :
  splitSpace (a ++ String " " b) = (splitSpace a ++ splitSpace b)%list.
Proof.
  induction a as [|c a IH]; simpl; [done|].
  case_decide; [by rewrite IH|]. rewrite IH.
  pose proof (splitSpace_nonempty a). by destruct (splitSpace a).
Qed.

Lemma prefix_app p a b : String.prefix p a = true → String.prefix p (a ++ b) = true.
Proof.
  revert a. induction p as [|c p IH]; intros a.
  - intros _. by destruct (a ++ b).
  - destruct a as [|c' a]; simpl; [done|].
    destruct (Ascii.ascii_dec c c'); [apply IH | done].
Qed.

Section facts.
Variable verifySigned : string → JwtError + Payload.
Variable findById : option string → Lookup.

Lemma tryBlock_outcomes token :
  (∃ u, tryBlock verifySigned findById token = [CallNext u])
  ∨ (∃ msg, tryBlock verifySigned findById token = catchBlock msg).
Proof.
  unfold tryBlock. destruct (jwtVerify _ _) as [e|decoded]; [right; by eexists|].
  destruct (findById _); [left|right|right]; by eexists.
Qed.

(** ** Results *)

(** X17: whatever the header, the middleware calls [next()] at most
    once, never both calls [next()] and answers, never does neither,
    answers at most twice, and only ever with status 401. *)
Theorem protect_outcomes authorization :
  (length (nextCalls (protect verifySigned findById authorization)) ≤ 1)%nat
  ∧ (1 ≤ length (nextCalls (protect verifySigned findById authorization))
         + length (responses (protect verifySigned findById authorization)))%nat
  ∧ (length (responses (protect verifySigned findById authorization)) ≤ 2)%nat
  ∧ (nextCalls (protect verifySigned findById authorization) ≠ [] →
     responses (protect verifySigned findById authorization) = [])
  ∧ Forall (λ r, r.1 = 401)
      (responses (protect verifySigned findById authorization)).
Proof.
  destruct authorization as [h|].
  2: { rewrite protect_no_header. simpl. split_and!; auto. by repeat constructor. }
  destruct (truthy (Some h) && startsWithBearer h) eqn:Hb.
  2: { assert (protect verifySigned findById (Some h)
               = [ResJson 401 "Not authorized, no token"]) as ->.
       { unfold protect, bearerBlock. by rewrite Hb. }
       simpl. split_and!; auto. by repeat constructor. }
  destruct (truthy (splitSpace h !! 1%nat)) eqn:Ht.
  - rewrite protect_bearer_token by done.
    destruct (tryBlock_outcomes (splitSpace h !! 1%nat)) as [[u ->]|[msg ->]];
      simpl; split_and!; auto; by repeat constructor.
  - rewrite protect_bearer_no_token by done.
    simpl; split_and!; auto; by repeat constructor.
Qed.

(** X18: the header that [authFetch] builds from a non-empty token
    without a space is read back by the middleware as that token; the
    request then has a single outcome, and when the token verifies and
    its user is found that outcome is [next()] with the user. *)
Theorem bearer_header_round_trip v tok o :
  Session.token v = Some tok → tok ≠ "" → spaceFree tok = true →
  ∃ h, Session.sentAuthorization (Session.authFetch (Some v) o) = Some h
     ∧ presentedToken verifySigned findById (Some h) = Some tok
     ∧ singleOutcome (protect verifySigned findById (Some h))
     ∧ ∀ decoded user,
         verifySigned tok = inr decoded → findById (id decoded) = Found user →
         protect verifySigned findById (Some h) = [CallNext user].
Proof.
  intros Htok Hne Hfree. exists ("Bearer " ++ tok).
  assert (splitSpace ("Bearer " ++ tok) !! 1%nat = Some tok) as Hpiece.
  { by rewrite splitSpace_bearer, splitSpace_spaceFree. }
  assert (truthy (Some tok) = true) as Htruthy.
  { simpl. by rewrite bool_decide_true. }
  assert (protect verifySigned findById (Some ("Bearer " ++ tok))
          = tryBlock verifySigned findById (Some tok)) as Hprotect.
  { rewrite protect_bearer_token; rewrite ?Hpiece; done. }
  split_and!.
  - by apply Session.authFetch_sends_bearer.
  - unfold presentedToken, bearerBlock.
    replace (truthy (Some ("Bearer " ++ tok)) && startsWithBearer ("Bearer " ++ tok))
      with true by done.
    exact Hpiece.
  - rewrite Hprotect. apply tryBlock_singleOutcome.
  - intros decoded user Hv Hf. rewrite Hprotect. unfold tryBlock, jwtVerify.
    rewrite decide_False by done. by rewrite Hv, Hf.
Qed.

(** X19: only the piece after the first space is looked at.  What
    follows a further space in a bearer header changes nothing. *)
Theorem protect_ignores_trailing scheme tok rest :
  startsWithBearer scheme = true →
  spaceFree scheme = true → spaceFree tok = true →
  protect verifySigned findById
    (Some (scheme ++ String " " (tok ++ String " " rest)))
  = protect verifySigned findById (Some (scheme ++ String " " tok)).
Proof.
  intros Hb Hs Ht.
  assert (∀ x, truthy (Some (scheme ++ String " " x))
               && startsWithBearer (scheme ++ String " " x) = true) as Hhead.
  { intros x. apply andb_true_intro. split.
    - simpl. apply bool_decide_eq_true. by destruct scheme.
    - by apply prefix_app. }
  assert (∀ x, splitSpace (scheme ++ String " " x) !! 1%nat = splitSpace x !! 0%nat)
    as Hpiece.
  { intros x. by rewrite splitSpace_app, splitSpace_spaceFree. }
  unfold protect, bearerBlock. rewrite !Hhead, !Hpiece.
  by rewrite splitSpace_app, (splitSpace_spaceFree tok) by done.
Qed.

End facts.

Lemma bearer_header_round_trip_witness :
  ∃ h, Session.sentAuthorization
         (Session.authFetch (Some demoSession) (Session.FetchResponse 200))
       = Some h
     ∧ presentedToken demoVerify demoFind (Some h) = Some "good"
     ∧ singleOutcome (protect demoVerify demoFind (Some h))
     ∧ ∀ decoded user,
         demoVerify "good" = inr decoded → demoFind (id decoded) = Found user →
         protect demoVerify demoFind (Some h) = [CallNext user].
Proof.
  apply (bearer_header_round_trip demoVerify demoFind demoSession "good");
    [reflexivity | discriminate | reflexivity].
Defined.

Lemma protect_ignores_trailing_witness :
  protect demoVerify demoFind (Some "Bearer good and more")
  = protect demoVerify demoFind (Some "Bearer good").
Proof.
  apply (protect_ignores_trailing demoVerify demoFind "Bearer" "good" "and more");
    reflexivity.
Defined.

End AuthFacts.

(** * The streak where the offset of the zone changes *)

Module Zoned.

Import Stats.

(** A time zone around one change of its offset: local time is UTC plus
    [before] up to the instant [changeAt], and UTC plus [after] from then on
    (all in milliseconds). *)
Record Zone := mkZone {
  before : Z;
  after : Z;
  changeAt : Z
}.

(** A zone that never changes. *)
Definition fixedZone (tz : Z) : Zone := mkZone tz tz 0.

(** LocalTime(t): the time value plus the offset in force at [t]. *)
Definition localTime (z : Zone) (t : Z) : Z :=
  if decide (t < changeAt z) then t + before z else t + after z.

(** UTC(t): of the instants that show the local time [t], the first; for
    a local time that the change skips, the one that the offset before
    the change gives. *)
Definition utc (z : Zone) (l : Z) : Z :=
  if decide (l - before z < changeAt z) then l - before z
  else if decide (changeAt z <= l - after z) then l - after z
  else l - before z.

(** TimeClip: a time value beyond 8.64e15 ms is NaN. *)
Definition timeLimit : Z := 8640000000000000.

Definition timeClip (t : Z) : TimeValue :=
  if decide (- timeLimit <= t <= timeLimit) then Some t else None.

(** [d.setHours(0, 0, 0, 0)]: the start of the local day, read back as an
    instant.  An invalid date stays invalid. *)
Definition setHours0 (z : Zone) (d : TimeValue) : TimeValue :=
  d ≫= λ t, timeClip (utc z (msPerDay * (localTime z t `div` msPerDay))).

(** [d.setDate(d.getDate() - 1)]: the local date and time one day number
    back, the time within the day kept, read back as an instant. *)
Definition setDatePrev (z : Zone) (d : TimeValue) : TimeValue :=
  d ≫= λ t, timeClip (utc z (localTime z t - msPerDay)).

(** The callback of [sortedEntries.map]. *)
Definition entryDay (z : Zone) (e : Entry) : TimeValue :=
  setHours0 z (date e).

(** [new Set(sortedEntries.map(...))] *)
Definition entryDates (z : Zone) (moodHistory : list Entry) : gset TimeValue :=
  list_to_set (entryDay z <$> sortEntries moodHistory).

(** The [while (true)] loop; [None] when the fuel runs out. *)
Fixpoint walkBack (fuel : nat) (z : Zone) (dates : gset TimeValue)
    (currentDate : TimeValue) (streak : Z) : option Z :=
  match fuel with
  | O => None
  | S fuel' =>
      let previousDay := setDatePrev z currentDate in
      if decide (previousDay ∈ dates)
      then walkBack fuel' z dates previousDay (streak + 1)
      else Some streak
  end.

(** The body of the [currentStreak] memo. *)
Definition currentStreakFuel (fuel : nat) (z : Zone) (now : Z)
    (moodHistory : list Entry) : option Z :=
  if decide (length moodHistory = 0%nat) then Some 0
  else
    let streak := 0 in
    let today := setHours0 z (Some now) in
    let dates := entryDates z moodHistory in
    if decide (today ∈ dates)
    then walkBack fuel z dates today (streak + 1)
    else
      let yesterday := setDatePrev z today in
      if decide (yesterday ∉ dates) then Some 0
      else walkBack fuel z dates yesterday (streak + 1).

Definition currentStreak (z : Zone) (now : Z) (moodHistory : list Entry)
    : option Z :=
  currentStreakFuel (S (length moodHistory)) z now moodHistory.

(** ** Vocabulary of the specification *)

(** The local calendar day of a time value, as a day number. *)
Definition localDay (z : Zone) (t : Z) : Z := localTime z t `div` msPerDay.

(** The distinct local calendar days on which the list has an entry. *)
Definition localDays (z : Zone) (l : list Entry) : gset Z :=
  list_to_set (omap (λ e, localDay z <$> date e) l).

(** ** A zone where daylight saving time starts at midnight

    America/Santiago in September 2024: on Sunday the 8th the clocks go
    from 24:00 of Saturday, at UTC-4, to 01:00, at UTC-3.  The instant is
    2024-09-08T04:00:00Z. *)
Definition santiago : Zone := mkZone (-14400000) (-10800000) 1725768000000.

(** Noon of Monday 2024-09-09 in Santiago. *)
Definition noonSep9 : Z := 1725894000000.

(** An entry made at local noon, [n] calendar days before Monday. *)
Definition noonBefore (n : Z) : Entry :=
  mkEntry "good" ""
    (Some (utc santiago (localTime santiago noonSep9 - n * msPerDay))).

(** Thursday the 5th to Monday the 9th, one entry a day. *)
Definition fiveDays : list Entry :=
  [noonBefore 0; noonBefore 1; noonBefore 2; noonBefore 3; noonBefore 4].

(** ** A zone where it ends at two in the morning

    America/New_York in November 2025: on Sunday the 2nd the clocks go
    from 02:00, at UTC-4, back to 01:00, at UTC-5.  The instant is
    2025-11-02T06:00:00Z, and the Sunday lasts 25 hours. *)
Definition newYork : Zone := mkZone (-14400000) (-18000000) 1762063200000.

(** Ten past midnight and ten to midnight of that Sunday. *)
Definition sundayEarly : Z := 1762056600000.
Definition sundayLate : Z := 1762145400000.

(** ** The fixed zone *)

Lemma localTime_fixed tz t : localTime (fixedZone tz) t = t + tz.
Proof. unfold localTime. simpl. by case_decide. Qed.

Lemma utc_fixed tz l : utc (fixedZone tz) l = l - tz.
Proof. unfold utc. simpl. by repeat case_decide. Qed.

(** In a zone that never changes, the two operations are those of
    [Stats], clipped. *)
Lemma setHours0_fixed tz t :
  setHours0 (fixedZone tz) (Some t) = timeClip (Stats.setHours0 tz t).
Proof.
  unfold setHours0, Stats.setHours0. simpl.
  rewrite utc_fixed, localTime_fixed. f_equal.
  pose proof (Z.div_mod (t + tz) msPerDay). pose proof msPerDay_pos. lia.
Qed.

Lemma setDatePrev_fixed tz t :
  setDatePrev (fixedZone tz) (Some t) = timeClip (Stats.setDatePrev t).
Proof.
  unfold setDatePrev, Stats.setDatePrev. simpl.
  rewrite utc_fixed, localTime_fixed. f_equal. lia.
Qed.

(** ** The day whose midnight is skipped *)

(** Sunday the 8th has no midnight: its key is 01:00.  One day back from
    there is 01:00 of Saturday, which is not the key of Saturday. *)
Lemma skipped_midnight_key :
  localTime santiago <$> entryDay santiago (noonBefore 1)
  = Some (localDay santiago noonSep9 * msPerDay - msPerDay + 3600000)
  ∧ localTime santiago <$> setDatePrev santiago (entryDay santiago (noonBefore 1))
    = Some (localDay santiago noonSep9 * msPerDay - 2 * msPerDay + 3600000)
  ∧ localTime santiago <$> entryDay santiago (noonBefore 2)
    = Some (localDay santiago noonSep9 * msPerDay - 2 * msPerDay).
Proof. by split_and!. Qed.

(** C1, at a history in Santiago: there is an entry on each of the five
    days up to today, so the maximal run has length 5 and the algorithm of
    the specification computes 5; the memo returns 2, because the walk
    stops at the Sunday whose midnight is skipped. *)
Theorem streak_stops_at_skipped_midnight :
  currentStreak santiago noonSep9 fiveDays = Some 2
  ∧ localDays santiago fiveDays
    = {[localDay santiago noonSep9; localDay santiago noonSep9 - 1;
        localDay santiago noonSep9 - 2; localDay santiago noonSep9 - 3;
        localDay santiago noonSep9 - 4]}
  ∧ specStreak (localDays santiago fiveDays) (localDay santiago noonSep9) = 5
  ∧ StreakOf (localDays santiago fiveDays) (localDay santiago noonSep9) 5.
Proof.
  assert (specStreak (localDays santiago fiveDays) (localDay santiago noonSep9)
          = 5) as Hspec by reflexivity.
  split_and!; [reflexivity | reflexivity | done |].
  rewrite <- Hspec. apply specStreak_StreakOf.
Qed.

(** C2, at histories in Santiago on Monday the 9th: entries on today
    only give 1, on the day before yesterday only give 0, and the empty
    history gives streak 0 and 0 points, as stated; entries on today,
    yesterday and the day before give 2, not 3, and entries on yesterday
    and the day before give 1, not 2. *)
Theorem examples_at_skipped_midnight :
  currentStreak santiago noonSep9 [noonBefore 0] = Some 1
  ∧ currentStreak santiago noonSep9 [noonBefore 0; noonBefore 1; noonBefore 2]
    = Some 2
  ∧ localDays santiago [noonBefore 0; noonBefore 1; noonBefore 2]
    = {[localDay santiago noonSep9; localDay santiago noonSep9 - 1;
        localDay santiago noonSep9 - 2]}
  ∧ currentStreak santiago noonSep9 [noonBefore 1; noonBefore 2] = Some 1
  ∧ localDays santiago [noonBefore 1; noonBefore 2]
    = {[localDay santiago noonSep9 - 1; localDay santiago noonSep9 - 2]}
  ∧ currentStreak santiago noonSep9 [noonBefore 2] = Some 0
  ∧ currentStreak santiago noonSep9 [] = Some 0
  ∧ totalPoints [] = 0.
Proof. split_and!; reflexivity. Qed.

(** Where the change is at two in the morning every day has its
    midnight.  Two entries of the 25 hour Sunday are on one day, and the
    streak is 1; no fixed offset puts them on one day. *)
Example one_long_day :
  currentStreak newYork sundayLate [entryAt sundayLate; entryAt sundayEarly]
  = Some 1
  ∧ localDay newYork sundayEarly = localDay newYork sundayLate
  ∧ ∀ tz, calendarDay tz sundayEarly ≠ calendarDay tz sundayLate.
Proof.
  split_and!; [reflexivity | reflexivity |].
  intros tz. unfold calendarDay, sundayEarly, sundayLate.
  pose proof msPerDay_pos.
  pose proof (Z.div_mod (1762056600000 + tz) msPerDay).
  pose proof (Z.div_mod (1762145400000 + tz) msPerDay).
  pose proof (Z.mod_pos_bound (1762056600000 + tz) msPerDay).
  pose proof (Z.mod_pos_bound (1762145400000 + tz) msPerDay).
  unfold msPerDay in *. lia.
Qed.

End Zoned.
